(** * Visonic alarm control panel: status normalisation and command gating

    A shallow embedding of [custom_components/visonicalarm/alarm_control_panel.py].

    The entity [VisonicAlarm] keeps a canonical alarm state that [update]
    recomputes from the raw status of the external hub, and offers three
    commands ([alarm_disarm], [alarm_arm_home], [alarm_arm_away]) that are
    gated by a code check and, for arming, by the panel's ready flag.

    Modelling choices.
    - A Python [str] is a list of Unicode code points ([N]).
    - The external hub ([hub], [hub.alarm], [hub.config]) is an interface
      ([HubClient]): an abstract state with the attributes the module reads
      and the calls it makes.  Calls into the hub return normally.
    - Everything the module does to the outside (hub calls, [sleep], log
      lines, persistent notifications) is recorded, in order, in a trace. *)

From stdpp Require Import base decidable option list gmap strings.
From Stdlib Require Import NArith ZArith Lia.

Local Open Scope N_scope.

(** ** Python text *)

Module Py.

(** A code point, and a Python [str]. *)
Definition codepoint := N.
Definition str := list codepoint.

(** A literal of the source, read code point by code point. *)
Definition lit (s : string) : str :=
  map (λ a, N.of_nat (Ascii.nat_of_ascii a)) (String.list_ascii_of_string s).

Definition is_ascii (c : codepoint) : bool := c <? 128.

(** [str.isspace] on one character: the interpreter's white space set. *)
Definition isspace (c : codepoint) : bool :=
  ((9 <=? c) && (c <=? 13)) || ((28 <=? c) && (c <=? 32))
  || (c =? 133) || (c =? 160) || (c =? 5760)
  || ((8192 <=? c) && (c <=? 8202))
  || (c =? 8232) || (c =? 8233) || (c =? 8239) || (c =? 8287)
  || (c =? 12288).

(** [str.lstrip()], [str.rstrip()] and [str.strip()] without argument. *)
Fixpoint lstrip (s : str) : str :=
  match s with
  | c :: s' => if isspace c then lstrip s' else s
  | [] => []
  end.

Definition rstrip (s : str) : str := reverse (lstrip (reverse s)).

Definition strip (s : str) : str := rstrip (lstrip s).

Definition ascii_upper (c : codepoint) : codepoint :=
  if (97 <=? c) && (c <=? 122) then c - 32 else c.

Definition ascii_lower (c : codepoint) : codepoint :=
  if (65 <=? c) && (c <=? 90) then c + 32 else c.

(** The case mappings of the interpreter on text that has a character
    outside ASCII.  They are tables of the Python runtime, not code of this
    module, so they are taken as an interface. *)
Class Unicode := {
  unicode_upper : str → str;
  unicode_lower : str → str
}.

(** [str.upper()] and [str.lower()]. *)
Definition upper {unicode : Unicode} (s : str) : str :=
  if forallb is_ascii s then map ascii_upper s else unicode_upper s.

Definition lower {unicode : Unicode} (s : str) : str :=
  if forallb is_ascii s then map ascii_lower s else unicode_lower s.

(** The Python values that reach the code arguments and the change record. *)
Inductive value :=
| None_
| Str (s : str)
| Int (z : Z).

#[global] Instance value_eq_dec : EqDecision value.
Proof. solve_decision. Defined.

(** [a != b] *)
Definition ne (a b : value) : bool := negb (bool_decide (a = b)).

End Py.

Import Py.

(** ** Alarm states

    The state constants the module imports through its compatibility shim,
    and [STATE_UNKNOWN] of the host framework. *)

Inductive AlarmState :=
| STATE_ALARM_DISARMED
| STATE_ALARM_ARMED_HOME
| STATE_ALARM_ARMED_AWAY
| STATE_ALARM_ARMED_NIGHT
| STATE_ALARM_TRIGGERED
| STATE_ALARM_PENDING
| STATE_ALARM_ARMING
| STATE_UNKNOWN.

#[global] Instance AlarmState_eq_dec : EqDecision AlarmState.
Proof. solve_decision. Defined.

(** ** The external hub *)

(** What [hub.alarm.get_last_event] returns: a dict with the keys
    ["user"] and ["timestamp"]. *)
Record LastEvent := { user : value; timestamp : value }.

(** The hub as the module uses it.  [alarm_state] is [None] when
    [hub.alarm.state] is [None], and the text [str(raw)] otherwise. *)
Class HubClient (H : Type) := {
  hub_update : H → H;
  config_user_code : H → value;
  config_no_pin_required : H → bool;
  config_event_hour_offset : H → value;
  alarm_serial_number : H → value;
  alarm_state : H → option str;
  alarm_ready : H → bool;
  alarm_disarm_call : H → H;
  alarm_arm_home_call : H → H;
  alarm_arm_away_call : H → H;
  alarm_get_last_event : value → H → LastEvent * H
}.

(** ** What the module does to the outside, in order *)

Inductive Event :=
| HubUpdate                                  (* hub.update() *)
| Disarm                                     (* hub.alarm.disarm() *)
| ArmHome                                    (* hub.alarm.arm_home() *)
| ArmAway                                    (* hub.alarm.arm_away() *)
| GetLastEvent (timestamp_hour_offset : value)
| Sleep (seconds : N)                        (* sleep(n) *)
| LogWarning (raw : option str)              (* _LOGGER.warning *)
| LogDebug (status : str)                    (* _LOGGER.debug *)
| Notify (message title : string).           (* pn.create *)

#[global] Instance Event_eq_dec : EqDecision Event.
Proof. solve_decision. Defined.

(** ** The entity *)

Record VisonicAlarm := {
  _attr_state : AlarmState;
  _code : value;
  _no_pin_required : bool;
  _changed_by : value;
  _changed_timestamp : value;
  _event_hour_offset : value;
  _id : value
}.

Definition set_attr_state (st : AlarmState) (a : VisonicAlarm) : VisonicAlarm :=
  {| _attr_state := st;
     _code := _code a;
     _no_pin_required := _no_pin_required a;
     _changed_by := _changed_by a;
     _changed_timestamp := _changed_timestamp a;
     _event_hour_offset := _event_hour_offset a;
     _id := _id a |}.

(** [update_last_event(self, user, timestamp)] *)
Definition update_last_event (u t : value) (a : VisonicAlarm) : VisonicAlarm :=
  {| _attr_state := _attr_state a;
     _code := _code a;
     _no_pin_required := _no_pin_required a;
     _changed_by := u;
     _changed_timestamp := t;
     _event_hour_offset := _event_hour_offset a;
     _id := _id a |}.



(** ** The state mapping of [update] *)

Definition mapping : gmap str AlarmState :=
  list_to_map [
    (lit "AWAY", STATE_ALARM_ARMED_AWAY);
    (lit "ARMED_AWAY", STATE_ALARM_ARMED_AWAY);
    (lit "ARM", STATE_ALARM_ARMED_AWAY);
    (lit "ARM_AWAY", STATE_ALARM_ARMED_AWAY);

    (lit "HOME", STATE_ALARM_ARMED_HOME);
    (lit "STAY", STATE_ALARM_ARMED_HOME);
    (lit "ARMED_HOME", STATE_ALARM_ARMED_HOME);
    (lit "ARM_HOME", STATE_ALARM_ARMED_HOME);

    (lit "DISARM", STATE_ALARM_DISARMED);
    (lit "DISARMED", STATE_ALARM_DISARMED);
    (lit "READY", STATE_ALARM_DISARMED);
    (lit "IDLE", STATE_ALARM_DISARMED);

    (lit "ARMING", STATE_ALARM_ARMING);
    (lit "EXITDELAY", STATE_ALARM_ARMING);

    (lit "ENTRYDELAY", STATE_ALARM_PENDING);
    (lit "PENDING", STATE_ALARM_PENDING);

    (lit "ALARM", STATE_ALARM_TRIGGERED);
    (lit "TRIGGERED", STATE_ALARM_TRIGGERED)
  ].

(** [d.get(key, default)] *)
Definition dict_get {V} (d : gmap str V) (key : str) (dflt : V) : V :=
  default dflt (d !! key).

(** ** The world and the monad of the module's methods *)

Section Methods.

Context {H : Type} {client : HubClient H} {unicode : Unicode}.

(** The shared hub, the entity, and what has happened so far (oldest
    first). *)
Record World := {
  hub : H;
  self : VisonicAlarm;
  trace : list Event
}.

Definition M (A : Type) : Type := World → A * World.

#[export] Instance M_ret : MRet M := λ A x w, (x, w).
#[export] Instance M_bind : MBind M :=
  λ A B f m w, f (m w).1 (m w).2.

Definition exec {A} (m : M A) (w : World) : World := (m w).2.

Definition emit (e : Event) : M unit :=
  λ w, (tt, {| hub := hub w; self := self w; trace := trace w ++ [e] |}).

Definition read_hub {A} (f : H → A) : M A := λ w, (f (hub w), w).

Definition read_self {A} (f : VisonicAlarm → A) : M A := λ w, (f (self w), w).

Definition call_hub (f : H → H) : M unit :=
  λ w, (tt, {| hub := f (hub w); self := self w; trace := trace w |}).

Definition query_hub {A} (f : H → A * H) : M A :=
  λ w, ((f (hub w)).1,
        {| hub := (f (hub w)).2; self := self w; trace := trace w |}).

Definition write_self (f : VisonicAlarm → VisonicAlarm) : M unit :=
  λ w, (tt, {| hub := hub w; self := f (self w); trace := trace w |}).

(** The calls that leave the module. *)
Definition hub_update_ : M unit := emit HubUpdate ;; call_hub hub_update.
Definition hub_alarm_disarm : M unit := emit Disarm ;; call_hub alarm_disarm_call.
Definition hub_alarm_arm_home : M unit := emit ArmHome ;; call_hub alarm_arm_home_call.
Definition hub_alarm_arm_away : M unit := emit ArmAway ;; call_hub alarm_arm_away_call.
Definition hub_alarm_get_last_event (offset : value) : M LastEvent :=
  emit (GetLastEvent offset) ;; query_hub (alarm_get_last_event offset).
Definition sleep (n : N) : M unit := emit (Sleep n).
Definition pn_create (message title : string) : M unit := emit (Notify message title).

(** *** [VisonicAlarm.__init__] *)
Definition __init__ (h : H) : VisonicAlarm :=
  {| _attr_state := STATE_UNKNOWN;
     _code := config_user_code h;
     _no_pin_required := config_no_pin_required h;
     _changed_by := None_;
     _changed_timestamp := None_;
     _event_hour_offset := config_event_hour_offset h;
     _id := alarm_serial_number h |}.

(** *** [VisonicAlarm.update] *)
Definition update : M unit :=
  hub_update_ ;;
  raw ← read_hub alarm_state ;
  emit (LogWarning raw) ;;
  match raw with
  | None => write_self (set_attr_state STATE_UNKNOWN)
  | Some raw =>
      let status := upper (strip raw) in
      emit (LogDebug status) ;;
      write_self (set_attr_state (dict_get mapping status STATE_UNKNOWN))
  end.

(** *** [VisonicAlarm.alarm_disarm] *)
Definition alarm_disarm (code : value) : M unit :=
  no_pin ← read_self _no_pin_required ;
  own ← read_self _code ;
  if negb no_pin && ne code own then
    pn_create "You entered the wrong disarm code." "Disarm Failed"
  else
    hub_alarm_disarm ;;
    sleep 1 ;;
    update.

(** *** [VisonicAlarm.alarm_arm_home] *)
Definition alarm_arm_home (code : value) : M unit :=
  no_pin ← read_self _no_pin_required ;
  own ← read_self _code ;
  if negb no_pin && ne code own then
    pn_create "You entered the wrong arm code." "Arm Failed"
  else
    ready ← read_hub alarm_ready ;
    if (ready : bool) then
      hub_alarm_arm_home ;;
      sleep 1 ;;
      update
    else
      pn_create "The alarm system is not ready. Doors/windows open?" "Arm Failed".

(** *** [VisonicAlarm.alarm_arm_away] *)
Definition alarm_arm_away (code : value) : M unit :=
  no_pin ← read_self _no_pin_required ;
  own ← read_self _code ;
  if negb no_pin && ne code own then
    pn_create "You entered the wrong arm code." "Unable to Arm"
  else
    ready ← read_hub alarm_ready ;
    if (ready : bool) then
      hub_alarm_arm_away ;;
      sleep 1 ;;
      update
    else
      pn_create "The alarm system is not ready. Doors/windows open?" "Unable to Arm".

(** *** [arm_event_listener] of [setup_platform] *)

(** The name under which the host framework reports a state. *)
Definition state_name (st : AlarmState) : str :=
  match st with
  | STATE_ALARM_DISARMED => lit "disarmed"
  | STATE_ALARM_ARMED_HOME => lit "armed_home"
  | STATE_ALARM_ARMED_AWAY => lit "armed_away"
  | STATE_ALARM_ARMED_NIGHT => lit "armed_night"
  | STATE_ALARM_TRIGGERED => lit "triggered"
  | STATE_ALARM_PENDING => lit "pending"
  | STATE_ALARM_ARMING => lit "arming"
  | STATE_UNKNOWN => lit "unknown"
  end.

(** A state object of the host, and the data of a state-changed event
    ([event.data.get] gives [None] for a missing key). *)
Record State := { state : str }.

Record StateChanged := {
  entity_id : value;
  old_state : option State;
  new_state : option State
}.

Definition arm_event_listener (event : StateChanged) : M unit :=
  match new_state event with
  | None => mret tt
  | Some new =>
      if bool_decide (state new ∈ [state_name STATE_UNKNOWN; lit ""]) then mret tt
      else
        if bool_decide (entity_id event = Str (lit "alarm_control_panel.visonic_alarm"))
           && match old_state event with
              | Some old => negb (bool_decide (state old = state new))
              | None => false
              end
        then
          let st := lower (state new) in
          if bool_decide (st ∈ [lit "armed_home"; lit "armed_away"; lit "disarmed"]) then
            offset ← read_self _event_hour_offset ;
            last_event ← hub_alarm_get_last_event offset ;
            write_self (update_last_event (user last_event) (timestamp last_event))
          else mret tt
        else mret tt
  end.

(** *** [setup_platform]: refresh the hub, then create the entity *)
Definition setup_platform (h : H) : World :=
  let h' := hub_update h in
  {| hub := h'; self := __init__ h'; trace := [HubUpdate] |}.

(** ** Sequences of operations on the entity *)

Inductive Command := CmdDisarm | CmdArmHome | CmdArmAway.

Definition command (c : Command) (code : value) : M unit :=
  match c with
  | CmdDisarm => alarm_disarm code
  | CmdArmHome => alarm_arm_home code
  | CmdArmAway => alarm_arm_away code
  end.

(** The hub call that belongs to a command, as an event and as its effect
    on the hub. *)
Definition client_event (c : Command) : Event :=
  match c with
  | CmdDisarm => Disarm
  | CmdArmHome => ArmHome
  | CmdArmAway => ArmAway
  end.

Definition client_call (c : Command) : H → H :=
  match c with
  | CmdDisarm => alarm_disarm_call
  | CmdArmHome => alarm_arm_home_call
  | CmdArmAway => alarm_arm_away_call
  end.

Definition hub_command (c : Command) : M unit :=
  match c with
  | CmdDisarm => hub_alarm_disarm
  | CmdArmHome => hub_alarm_arm_home
  | CmdArmAway => hub_alarm_arm_away
  end.

(** What can happen to the entity: the host polls it, a user issues a
    command, the bus delivers a state change, [update_last_event] is
    called, or the hub changes by itself (the panel, or another platform
    that shares the hub). *)
Inductive Op :=
| Poll
| Issue (c : Command) (code : value)
| Deliver (event : StateChanged)
| SetLastEvent (u t : value)
| HubChanged (f : H → H).

Definition run_op (o : Op) : M unit :=
  match o with
  | Poll => update
  | Issue c code => command c code
  | Deliver event => arm_event_listener event
  | SetLastEvent u t => write_self (update_last_event u t)
  | HubChanged f => call_hub f
  end.

Definition run (ops : list Op) (w : World) : World :=
  foldl (λ w o, exec (run_op o) w) w ops.

End Methods.

Arguments World H : clear implicits.
Arguments Op H : clear implicits.

#[global] Instance Command_eq_dec : EqDecision Command.
Proof. solve_decision. Defined.

(** ** The documented table and the normaliser, as the specification words them *)

(** The vendor synonyms of each canonical state. *)
Definition synonyms (st : AlarmState) : list string :=
  match st with
  | STATE_ALARM_ARMED_AWAY => ["AWAY"; "ARMED_AWAY"; "ARM"; "ARM_AWAY"]
  | STATE_ALARM_ARMED_HOME => ["HOME"; "STAY"; "ARMED_HOME"; "ARM_HOME"]
  | STATE_ALARM_DISARMED => ["DISARM"; "DISARMED"; "READY"; "IDLE"]
  | STATE_ALARM_ARMING => ["ARMING"; "EXITDELAY"]
  | STATE_ALARM_PENDING => ["ENTRYDELAY"; "PENDING"]
  | STATE_ALARM_TRIGGERED => ["ALARM"; "TRIGGERED"]
  | STATE_ALARM_ARMED_NIGHT | STATE_UNKNOWN => []
  end.

(** The canonical states. *)
Definition canonical_states : list AlarmState :=
  [STATE_ALARM_DISARMED; STATE_ALARM_ARMED_HOME; STATE_ALARM_ARMED_AWAY;
   STATE_ALARM_ARMING; STATE_ALARM_PENDING; STATE_ALARM_TRIGGERED; STATE_UNKNOWN].

Definition keys_of (st : AlarmState) : list str := lit <$> synonyms st.

(** Every key of the table. *)
Definition all_keys : list str := canonical_states ≫= keys_of.

Definition is_key (k : str) : Prop := ∃ st, k ∈ keys_of st.

(** The state the table assigns to a normalised status. *)
Definition table_state (k : str) : AlarmState :=
  default STATE_UNKNOWN
    (find (λ st, bool_decide (k ∈ keys_of st)) canonical_states).

(** The Normalizer: absent gives Unknown; otherwise trim, upper-case, look
    up, and unmatched gives Unknown. *)
Definition Normalizer {unicode : Unicode} (raw : option str) : AlarmState :=
  match raw with
  | None => STATE_UNKNOWN
  | Some r => table_state (upper (strip r))
  end.

(** A raw status that the table does not cover. *)
Definition unmapped {unicode : Unicode} (raw : option str) : Prop :=
  match raw with
  | None => True
  | Some r => ¬ is_key (upper (strip r))
  end.

(** The latest raw status the entity has read, from its warning log line. *)
Definition note_raw (seen : option (option str)) (e : Event) : option (option str) :=
  match e with
  | LogWarning raw => Some raw
  | _ => seen
  end.

Definition last_raw (tr : list Event) : option (option str) :=
  foldl note_raw None tr.

(** The state that follows from the latest raw status read so far. *)
Definition derived {unicode : Unicode} (tr : list Event) : AlarmState :=
  match last_raw tr with
  | None => STATE_UNKNOWN
  | Some raw => Normalizer raw
  end.

(** The debug line of [update], present only when the raw status is. *)
Definition debug_line {unicode : Unicode} (raw : option str) : list Event :=
  match raw with
  | None => []
  | Some r => [LogDebug (upper (strip r))]
  end.

(** Text that is white space only. *)
Definition spaces (s : str) : Prop := Forall (λ c, isspace c = true) s.



(** The code gate of the three commands. *)
Definition gate_passes (a : VisonicAlarm) (code : value) : Prop :=
  _no_pin_required a = true ∨ code = _code a.

(** The two notices of a command. *)
Definition wrong_code_notice (c : Command) : Event :=
  match c with
  | CmdDisarm => Notify "You entered the wrong disarm code." "Disarm Failed"
  | CmdArmHome => Notify "You entered the wrong arm code." "Arm Failed"
  | CmdArmAway => Notify "You entered the wrong arm code." "Unable to Arm"
  end.

Definition not_ready_notice (c : Command) : Event :=
  match c with
  | CmdDisarm | CmdArmHome =>
      Notify "The alarm system is not ready. Doors/windows open?" "Arm Failed"
  | CmdArmAway =>
      Notify "The alarm system is not ready. Doors/windows open?" "Unable to Arm"
  end.

Definition is_notice (e : Event) : bool :=
  match e with Notify _ _ => true | _ => false end.

(** Events that reach the external client. *)
Definition is_client_call (e : Event) : bool :=
  match e with
  | HubUpdate | Disarm | ArmHome | ArmAway | GetLastEvent _ => true
  | _ => false
  end.

(** The world after a command went through: the hub call of the command,
    the settle delay of one second, then one refresh with its log lines and
    the state of the Normalizer on the raw status read by that refresh. *)
Definition issued {H} {client : HubClient H} {unicode : Unicode}
    (c : Command) (w : World H) : World H :=
  let h := hub_update (client_call c (hub w)) in
  let raw := alarm_state h in
  {| hub := h;
     self := set_attr_state (Normalizer raw) (self w);
     trace := trace w ++ [client_event c; Sleep 1; HubUpdate; LogWarning raw]
                      ++ debug_line raw |}.

(** The world after a command was refused: one notice, nothing else. *)
Definition refused {H} (notice : Event) (w : World H) : World H :=
  {| hub := hub w; self := self w; trace := trace w ++ [notice] |}.

(** ** More of the entity: its other properties, and words for traces *)

(** The [name], [unique_id], [changed_by], [changed_timestamp] and
    [event_hour_offset] properties. *)
Definition name (a : VisonicAlarm) : string := "Visonic Alarm".
Definition unique_id (a : VisonicAlarm) : value := _id a.
Definition changed_by (a : VisonicAlarm) : value := _changed_by a.
Definition changed_timestamp (a : VisonicAlarm) : value := _changed_timestamp a.
Definition event_hour_offset (a : VisonicAlarm) : value := _event_hour_offset a.

(** The entity id the listener of [setup_platform] watches. *)
Definition watched_entity : value := Str (lit "alarm_control_panel.visonic_alarm").

(** The states whose arrival makes the listener ask for the last event. *)
Definition recorded_states : list AlarmState :=
  [STATE_ALARM_ARMED_HOME; STATE_ALARM_ARMED_AWAY; STATE_ALARM_DISARMED].

(** The event the host sends when the watched entity goes from one state
    to another. *)
Definition transition (old new : AlarmState) : StateChanged :=
  {| entity_id := watched_entity;
     old_state := Some {| state := state_name old |};
     new_state := Some {| state := state_name new |} |}.

(** The world after the listener asked the hub for the last event and stored
    its user and timestamp. *)
Definition queried {H} {client : HubClient H} (w : World H) : World H :=
  let offset := _event_hour_offset (self w) in
  let answer := alarm_get_last_event offset (hub w) in
  {| hub := answer.2;
     self := update_last_event (user answer.1) (timestamp answer.1) (self w);
     trace := trace w ++ [GetLastEvent offset] |}.

(** Counting events and operations. *)
Definition is_command_call (e : Event) : bool :=
  match e with
  | Disarm | ArmHome | ArmAway => true
  | _ => false
  end.

Definition is_refresh (e : Event) : bool :=
  match e with HubUpdate => true | _ => false end.

Definition is_settle (e : Event) : bool :=
  match e with Sleep 1 => true | _ => false end.

Definition is_last_event_query (e : Event) : bool :=
  match e with GetLastEvent _ => true | _ => false end.

Fixpoint count {A} (p : A → bool) (l : list A) : nat :=
  match l with
  | [] => 0
  | x :: l' => (if p x then 1 else 0) + count p l'
  end.

Definition is_poll {H} (o : Op H) : bool :=
  match o with Poll => true | _ => false end.

Definition is_issue {H} (o : Op H) : bool :=
  match o with Issue _ _ => true | _ => false end.

Definition is_deliver {H} (o : Op H) : bool :=
  match o with Deliver _ => true | _ => false end.

Definition sets_last_event {H} (o : Op H) : bool :=
  match o with Deliver _ | SetLastEvent _ _ => true | _ => false end.

(** Every hub command in a trace is directly followed by the settle delay
    of one second and a refresh of the hub. *)
Fixpoint settles (tr : list Event) : bool :=
  match tr with
  | [] => true
  | e :: rest =>
      (if is_command_call e
       then match rest with
            | Sleep 1 :: HubUpdate :: _ => true
            | _ => false
            end
       else true)
      && settles rest
  end.

(** A trace that does not begin with the warning line of [update]. *)
Definition starts_quiet (tr : list Event) : bool :=
  match tr with
  | LogWarning _ :: _ => false
  | _ => true
  end.

(** Every raw status logged was read directly after a refresh of the hub. *)
Fixpoint reads_fresh (tr : list Event) : bool :=
  match tr with
  | [] => true
  | e :: rest =>
      match rest with
      | LogWarning _ :: _ => is_refresh e
      | _ => true
      end
      && reads_fresh rest
  end.

(** What the entity takes from the configuration and the hub when it is
    created. *)
Definition settings (a : VisonicAlarm) : value * bool * value * value :=
  (_code a, _no_pin_required a, _event_hour_offset a, unique_id a).

(** The last change record. *)
Definition last_change (a : VisonicAlarm) : value * value :=
  (changed_by a, changed_timestamp a).

(** ** A simulated hub, for concrete runs *)

Module Sim.

(** The panel reports [coming] at the next refresh; a command sets what
    is coming. *)
Record Panel := {
  reported : option str;
  coming : option str;
  is_ready : bool;
  user_code : value;
  no_pin : bool
}.

Definition report (p : Panel) : Panel :=
  {| reported := coming p; coming := coming p; is_ready := is_ready p;
     user_code := user_code p; no_pin := no_pin p |}.

Definition expect (s : string) (p : Panel) : Panel :=
  {| reported := reported p; coming := Some (lit s); is_ready := is_ready p;
     user_code := user_code p; no_pin := no_pin p |}.

#[global] Instance panel_client : HubClient Panel := {|
  hub_update := report;
  config_user_code := user_code;
  config_no_pin_required := no_pin;
  config_event_hour_offset := λ _, Int 2;
  alarm_serial_number := λ _, Str (lit "A1B2C3");
  alarm_state := reported;
  alarm_ready := is_ready;
  alarm_disarm_call := expect "Disarm";
  alarm_arm_home_call := expect " home ";
  alarm_arm_away_call := expect "AWAY";
  alarm_get_last_event := λ offset p,
    ({| user := Str (lit "Anna"); timestamp := offset |}, p)
|}.

(** Text without case outside ASCII. *)
Definition caseless : Unicode := {| unicode_upper := id; unicode_lower := id |}.

Definition panel (raw : option str) (ready : bool) (pin_free : bool) : Panel :=
  {| reported := None; coming := raw; is_ready := ready;
     user_code := Str (lit "1234"); no_pin := pin_free |}.

End Sim.

(** ** Trimming and case *)

Section Text.

Context {unicode : Unicode}.

Lemma lstrip_spaces s : spaces s → lstrip s = [].
Proof. induction 1 as [|c s Hc _ IH]; [done|]. simpl. by rewrite Hc. Qed.

Lemma lstrip_app l s : spaces l → lstrip (l ++ s) = lstrip s.
Proof. induction 1 as [|c l Hc _ IH]; [done|]. simpl. by rewrite Hc. Qed.

Lemma lstrip_app_r s r :
  lstrip (s ++ r) = match lstrip s with [] => lstrip r | t => t ++ r end.
Proof.
  induction s as [|c s IH]; simpl.
  - by destruct (lstrip r).
  - destruct (isspace c); [apply IH | done].
Qed.

Lemma spaces_reverse s : spaces s → spaces (reverse s).
Proof. apply Forall_reverse. Qed.

Lemma rstrip_app s r : spaces r → rstrip (s ++ r) = rstrip s.
Proof.
  intros Hr. unfold rstrip. rewrite reverse_app.
  by rewrite lstrip_app by by apply spaces_reverse.
Qed.

(** White space around a status does not change what [strip] keeps. *)
Lemma strip_padding l s r : spaces l → spaces r → strip (l ++ s ++ r) = strip s.
Proof.
  intros Hl Hr. unfold strip. rewrite lstrip_app by done.
  rewrite lstrip_app_r. destruct (lstrip s) as [|c t] eqn:Hs.
  - by rewrite (lstrip_spaces r).
  - by rewrite rstrip_app.
Qed.






End Text.

(** ** The mapping of [update] against the documented table *)

(** The dictionary literal has eighteen entries and no key twice. *)
Lemma mapping_size : size mapping = 18%nat ∧ length all_keys = 18%nat.
Proof. by vm_compute. Qed.

Lemma all_keys_NoDup : NoDup all_keys.
Proof. apply (bool_decide_unpack _). by vm_compute. Qed.

Lemma is_key_all_keys k : is_key k ↔ k ∈ all_keys.
Proof.
  unfold is_key, all_keys. rewrite list_elem_of_bind. split.
  - intros [st Hst]. exists st. split; [done|].
    destruct st; simpl in Hst; try by apply elem_of_nil in Hst.
    all: apply (bool_decide_unpack _); by vm_compute.
  - intros (st & ? & _). by exists st.
Qed.

Lemma mapping_unmatched k : ¬ is_key k → mapping !! k = None.
Proof.
  rewrite is_key_all_keys. intros Hk. unfold mapping.
  apply not_elem_of_list_to_map_1. intros Hin. apply Hk. cbn [fmap list_fmap fst] in Hin.
  repeat (apply elem_of_cons in Hin as [->|Hin];
          [apply (bool_decide_unpack _); by vm_compute|]).
  by apply elem_of_nil in Hin.
Qed.

Lemma table_state_unmatched k : ¬ is_key k → table_state k = STATE_UNKNOWN.
Proof.
  intros Hk. unfold table_state.
  destruct (find _ _) as [st|] eqn:Hfind; [|done].
  apply find_some in Hfind as [_ Hst%bool_decide_eq_true].
  destruct Hk. by exists st.
Qed.

(** On a key, the dictionary of the code and the documented table agree on
    the state, which is the one that lists the key among its synonyms. *)
Lemma mapping_synonym st key :
  key ∈ synonyms st →
  mapping !! lit key = Some st ∧ table_state (lit key) = st.
Proof.
  destruct st; simpl; intros Hkey;
    repeat (apply elem_of_cons in Hkey as [->|Hkey]; [by vm_compute|]);
    by apply elem_of_nil in Hkey.
Qed.

(** The dictionary lookup with its default is the documented table. *)
Lemma dict_get_mapping k : dict_get mapping k STATE_UNKNOWN = table_state k.
Proof.
  unfold dict_get. destruct (decide (k ∈ all_keys)) as [Hin|Hout].
  - apply is_key_all_keys in Hin as [st Hst].
    unfold keys_of in Hst. apply list_elem_of_fmap in Hst as (key & -> & Hkey).
    destruct (mapping_synonym st key Hkey) as [-> ->]. done.
  - rewrite <- is_key_all_keys in Hout.
    by rewrite mapping_unmatched, table_state_unmatched.
Qed.

Lemma table_state_canonical k : table_state k ∈ canonical_states.
Proof.
  unfold table_state. destruct (find _ _) as [st|] eqn:Hfind; simpl.
  - apply find_some in Hfind as [Hin _]. by apply list_elem_of_In.
  - apply (bool_decide_unpack _). by vm_compute.
Qed.

(** ** The methods, step by step *)

Section Properties.

Context {H : Type} {client : HubClient H} {unicode : Unicode}.

Implicit Types (w : World H) (c : Command) (code : value).

(** Unfold the monad down to the primitive effects. *)
Ltac steps :=
  cbv [exec mbind M_bind mret M_ret emit call_hub read_hub read_self
       query_hub write_self sleep pn_create hub_update_ hub_alarm_disarm
       hub_alarm_arm_home hub_alarm_arm_away hub_alarm_get_last_event];
  cbn [fst snd hub self trace].

(** One run of [update]: one refresh of the hub, the two log lines, and
    the state of the Normalizer on the raw status just read. *)
Lemma exec_update w :
  let raw := alarm_state (hub_update (hub w)) in
  exec update w =
  {| hub := hub_update (hub w);
     self := set_attr_state (Normalizer raw) (self w);
     trace := trace w ++ [HubUpdate; LogWarning raw] ++ debug_line raw |}.
Proof.
  intros raw. unfold update. steps. fold raw.
  destruct raw as [r|]; steps; cbn [Normalizer debug_line].
  - rewrite dict_get_mapping. f_equal. by rewrite <- !app_assoc.
  - f_equal. by rewrite <- !app_assoc.
Qed.

Lemma exec_hub_command c w :
  exec (hub_command c) w =
  {| hub := client_call c (hub w); self := self w;
     trace := trace w ++ [client_event c] |}.
Proof. by destruct c. Qed.

(** The hub call, the settle delay and one [update], in that order. *)
Lemma exec_issue c w :
  exec (hub_command c ;; sleep 1 ;; update) w = issued c w.
Proof.
  change (exec (hub_command c ;; sleep 1 ;; update) w)
    with (exec update (exec (sleep 1) (exec (hub_command c) w))).
  rewrite exec_update, exec_hub_command. unfold issued. steps.
  f_equal. by rewrite <- !app_assoc.
Qed.

(** The test of the code gate in the three commands. *)
Lemma gate_test (a : VisonicAlarm) code :
  negb (_no_pin_required a) && ne code (_code a) = false ↔ gate_passes a code.
Proof.
  unfold gate_passes, ne. destruct (_no_pin_required a); simpl.
  - split; [by left | done].
  - rewrite negb_false_iff, bool_decide_eq_true.
    split; [by right | by intros [?|?]].
Qed.

Lemma gate_test_fails (a : VisonicAlarm) code :
  _no_pin_required a = false → code ≠ _code a →
  negb (_no_pin_required a) && ne code (_code a) = true.
Proof.
  intros -> Hne. unfold ne. simpl.
  by rewrite negb_true_iff, bool_decide_eq_false.
Qed.

(** The three outcomes of a command. *)
Lemma command_refused_code c code w :
  negb (_no_pin_required (self w)) && ne code (_code (self w)) = true →
  exec (command c code) w = refused (wrong_code_notice c) w.
Proof.
  intros Hgate. destruct c; unfold command, alarm_disarm, alarm_arm_home,
    alarm_arm_away; steps; rewrite Hgate; by steps.
Qed.

Lemma command_refused_ready c code w :
  negb (_no_pin_required (self w)) && ne code (_code (self w)) = false →
  c ≠ CmdDisarm → alarm_ready (hub w) = false →
  exec (command c code) w = refused (not_ready_notice c) w.
Proof.
  intros Hgate Hc Hready. destruct c; [done| |];
    unfold command, alarm_arm_home, alarm_arm_away; steps;
    rewrite Hgate; steps; rewrite Hready; by steps.
Qed.

Lemma command_goes_through c code w :
  negb (_no_pin_required (self w)) && ne code (_code (self w)) = false →
  (c ≠ CmdDisarm → alarm_ready (hub w) = true) →
  exec (command c code) w = exec (hub_command c ;; sleep 1 ;; update) w.
Proof.
  intros Hgate Hready. destruct c;
    unfold command, alarm_disarm, alarm_arm_home, alarm_arm_away; steps;
    rewrite Hgate; steps; [done| |]; by rewrite Hready.
Qed.

(** *** The Normalizer *)

(** C1. A raw status whose trimmed, upper-cased form is a key of the
    synonym table gets the canonical state that lists this key, whatever
    its letter case was and whatever white space surrounds it: [update]
    stores exactly that state. *)
Theorem update_synonym w st key raw l r :
  key ∈ synonyms st →
  upper (strip raw) = lit key →
  spaces l → spaces r →
  alarm_state (hub_update (hub w)) = Some (l ++ raw ++ r) →
  _attr_state (self (exec update w)) = st.
Proof.
  intros Hkey Hnorm Hl Hr Hraw. rewrite exec_update. cbn [self set_attr_state _attr_state].
  rewrite Hraw. cbn [Normalizer]. rewrite strip_padding, Hnorm by done.
  by apply mapping_synonym.
Qed.

(** C2. For the raw status [None], and for a raw status whose trimmed,
    upper-cased form is no key of the table, [update] stores Unknown; it
    always returns.  For [None] it does nothing after the refresh and the
    warning line: no trimmed status is produced or logged. *)
Theorem update_unmapped w raw :
  alarm_state (hub_update (hub w)) = raw →
  unmapped raw →
  _attr_state (self (exec update w)) = STATE_UNKNOWN
  ∧ (raw = None →
     exec update w =
     {| hub := hub_update (hub w);
        self := set_attr_state STATE_UNKNOWN (self w);
        trace := trace w ++ [HubUpdate; LogWarning None] |}).
Proof.
  intros Hraw Hun. rewrite exec_update, Hraw. split.
  - cbn [self set_attr_state _attr_state]. destruct raw as [r|]; [|done].
    by apply table_state_unmatched.
  - by intros ->.
Qed.

(** *** The command gateway *)

(** C3. When the code gate passes, and for the two arm commands the panel
    is ready, a command is the hub call of that command once, then the
    settle delay of one second, then one [update], in that order; the
    world afterwards is the one [issued] spells out. *)
Theorem command_issued w c code :
  gate_passes (self w) code →
  (c ≠ CmdDisarm → alarm_ready (hub w) = true) →
  exec (command c code) w = exec (hub_command c ;; sleep 1 ;; update) w
  ∧ exec (command c code) w = issued c w.
Proof.
  intros Hgate%gate_test Hready.
  rewrite command_goes_through by done. by rewrite exec_issue.
Qed.

(** C4. With a PIN required and a code that differs from the configured
    one, each of the three commands leaves the hub alone (no disarm, no
    arm, no refresh) and adds one notice, the wrong-code notice of the
    command, to what has happened. *)
Theorem command_wrong_code w c code :
  _no_pin_required (self w) = false →
  code ≠ _code (self w) →
  exec (command c code) w = refused (wrong_code_notice c) w
  ∧ hub (exec (command c code) w) = hub w
  ∧ trace (exec (command c code) w) = trace w ++ [wrong_code_notice c]
  ∧ is_client_call (wrong_code_notice c) = false.
Proof.
  intros Hpin Hne. rewrite command_refused_code by by apply gate_test_fails.
  by destruct c.
Qed.

(** C5. When the code gate passes and the panel is not ready, the two arm
    commands leave the hub alone (no arm call, no delay, no refresh) and
    add one notice, the not-ready notice of the command. *)
Theorem arm_not_ready w c code :
  c ≠ CmdDisarm →
  gate_passes (self w) code →
  alarm_ready (hub w) = false →
  exec (command c code) w = refused (not_ready_notice c) w
  ∧ hub (exec (command c code) w) = hub w
  ∧ trace (exec (command c code) w) = trace w ++ [not_ready_notice c]
  ∧ is_client_call (not_ready_notice c) = false.
Proof.
  intros Hc Hgate%gate_test Hready. rewrite command_refused_ready by done.
  by destruct c.
Qed.

(** C6. With "no PIN required" set, a command does not look at the code:
    for every code, also [None], disarm goes through, and an arm command
    goes through when the panel is ready and gives the not-ready notice
    otherwise. *)
Theorem no_pin_any_code w c :
  _no_pin_required (self w) = true →
  ∀ code,
    exec (command c code) w =
    (if bool_decide (c = CmdDisarm) || alarm_ready (hub w)
     then issued c w
     else refused (not_ready_notice c) w)
    ∧ exec (command c code) w = exec (command c None_) w.
Proof.
  intros Hpin.
  assert (Hany : ∀ code,
    exec (command c code) w =
    if bool_decide (c = CmdDisarm) || alarm_ready (hub w)
    then issued c w else refused (not_ready_notice c) w).
  { intros code.
    assert (Hgate : negb (_no_pin_required (self w)) && ne code (_code (self w)) = false)
      by by rewrite Hpin.
    destruct (decide (c = CmdDisarm)) as [->|Hc].
    - rewrite command_goes_through, exec_issue by done. done.
    - rewrite bool_decide_eq_false_2 by done. cbn [orb].
      destruct (alarm_ready (hub w)) eqn:Hready.
      + by rewrite command_goes_through, exec_issue.
      + by rewrite command_refused_ready. }
  intros code. split; [apply Hany|]. by rewrite !Hany.
Qed.

(** C9. Disarming does not consult readiness: when its code gate passes
    and the panel is not ready, [alarm_disarm] still makes the disarm call,
    waits and refreshes, while both arm commands are refused in the same
    world. *)
Theorem disarm_ignores_ready w code :
  gate_passes (self w) code →
  alarm_ready (hub w) = false →
  exec (alarm_disarm code) w = issued CmdDisarm w
  ∧ exec (alarm_arm_home code) w = refused (not_ready_notice CmdArmHome) w
  ∧ exec (alarm_arm_away code) w = refused (not_ready_notice CmdArmAway) w.
Proof.
  intros Hgate%gate_test Hready. split; [|split].
  - change (alarm_disarm code) with (command CmdDisarm code).
    by rewrite command_goes_through, exec_issue.
  - change (alarm_arm_home code) with (command CmdArmHome code).
    by rewrite command_refused_ready.
  - change (alarm_arm_away code) with (command CmdArmAway code).
    by rewrite command_refused_ready.
Qed.

(** C10. A refused command changes nothing of the entity: on a wrong code
    with a PIN required, and on arming a panel that is not ready, the
    entity (its state, changed-by user and changed timestamp with it) and
    the hub are as before, and all that happened is one notice, so no
    refresh. *)
Theorem refused_changes_nothing w c code :
  (_no_pin_required (self w) = false ∧ code ≠ _code (self w))
  ∨ (gate_passes (self w) code ∧ c ≠ CmdDisarm ∧ alarm_ready (hub w) = false) →
  let w' := exec (command c code) w in
  self w' = self w
  ∧ _attr_state (self w') = _attr_state (self w)
  ∧ _changed_by (self w') = _changed_by (self w)
  ∧ _changed_timestamp (self w') = _changed_timestamp (self w)
  ∧ hub w' = hub w
  ∧ ∃ notice, is_notice notice = true ∧ trace w' = trace w ++ [notice].
Proof.
  intros [[Hpin Hne]|(Hgate%gate_test & Hc & Hready)] w'; subst w'.
  - rewrite command_refused_code by by apply gate_test_fails.
    repeat split. exists (wrong_code_notice c). by destruct c.
  - rewrite command_refused_ready by done.
    repeat split. exists (not_ready_notice c). by destruct c.
Qed.

(** *** The held state over sequences of operations *)

Lemma note_raw_from seen new :
  foldl note_raw seen new = from_option Some seen (foldl note_raw None new).
Proof.
  revert seen. induction new as [|e new IH]; intros seen; [done|].
  cbn [foldl]. rewrite (IH (note_raw seen e)), (IH (note_raw None e)).
  by destruct e, (foldl note_raw None new).
Qed.

Lemma last_raw_app tr new :
  last_raw (tr ++ new) = from_option Some (last_raw tr) (last_raw new).
Proof. unfold last_raw. rewrite foldl_app. apply note_raw_from. Qed.

Lemma Normalizer_canonical raw : Normalizer raw ∈ canonical_states.
Proof.
  destruct raw as [r|]; cbn [Normalizer]; [apply table_state_canonical|].
  apply (bool_decide_unpack _). by vm_compute.
Qed.

Lemma derived_canonical tr : derived tr ∈ canonical_states.
Proof.
  unfold derived. destruct (last_raw tr); [apply Normalizer_canonical|].
  apply (bool_decide_unpack _). by vm_compute.
Qed.

(** A command either goes through or is refused with a notice. *)
Lemma command_cases c code w :
  exec (command c code) w = issued c w
  ∨ ∃ notice, is_notice notice = true
              ∧ exec (command c code) w = refused notice w.
Proof.
  destruct (negb (_no_pin_required (self w)) && ne code (_code (self w))) eqn:Hgate.
  - right. exists (wrong_code_notice c). split; [by destruct c|].
    by apply command_refused_code.
  - destruct (decide (c = CmdDisarm)) as [->|Hc].
    + left. by rewrite command_goes_through, exec_issue.
    + destruct (alarm_ready (hub w)) eqn:Hready.
      * left. by rewrite command_goes_through, exec_issue.
      * right. exists (not_ready_notice c). split; [by destruct c|].
        by apply command_refused_ready.
Qed.

(** The listener either does nothing or asks the hub for the last event
    and stores its user and timestamp. *)
Lemma listener_cases event w :
  exec (arm_event_listener event) w = w
  ∨ exec (arm_event_listener event) w =
    let offset := _event_hour_offset (self w) in
    let answer := alarm_get_last_event offset (hub w) in
    {| hub := answer.2;
       self := update_last_event (user answer.1) (timestamp answer.1) (self w);
       trace := trace w ++ [GetLastEvent offset] |}.
Proof.
  unfold arm_event_listener. destruct w as [h a tr].
  destruct (new_state event) as [new|]; [|by left].
  repeat (match goal with |- context [if ?b then _ else _] => destruct b end);
    try (by left).
  right. by steps.
Qed.

(** The state the entity holds is the one derived from the latest raw
    status it has read, through every operation. *)
Lemma run_op_derived (o : Op H) w :
  _attr_state (self w) = derived (trace w) →
  _attr_state (self (exec (run_op o) w)) = derived (trace (exec (run_op o) w)).
Proof.
  intros Hinv. destruct o as [|c code|event|u t|f]; cbn [run_op].
  - rewrite exec_update. cbn [self trace set_attr_state _attr_state].
    unfold derived. rewrite last_raw_app.
    by destruct (alarm_state (hub_update (hub w))).
  - destruct (command_cases c code w) as [->|(notice & Hn & ->)].
    + unfold issued. cbn [self trace set_attr_state _attr_state].
      unfold derived. rewrite last_raw_app.
      by destruct (alarm_state (hub_update (client_call c (hub w)))), c.
    + unfold refused. cbn [self trace]. rewrite Hinv.
      unfold derived. rewrite last_raw_app. by destruct notice.
  - destruct (listener_cases event w) as [->| ->]; [done|].
    cbn [self trace update_last_event _attr_state]. rewrite Hinv.
    unfold derived. by rewrite last_raw_app.
  - done.
  - done.
Qed.

Lemma run_derived (ops : list (Op H)) w :
  _attr_state (self w) = derived (trace w) →
  _attr_state (self (run ops w)) = derived (trace (run ops w)).
Proof.
  revert w. induction ops as [|o ops IH]; intros w Hinv; [done|].
  cbn [run foldl]. apply IH. by apply run_op_derived.
Qed.

(** C7. From the set-up on and through every sequence of operations, the
    state the entity holds is one of Disarmed, ArmedHome, ArmedAway,
    Arming, Pending, Triggered and Unknown; it is the state that the table
    assigns to the latest raw status read (Unknown before any was read);
    and after an [update] it is the Normalizer's state of the raw status
    the hub then reports. *)
Theorem state_invariant (h : H) (ops : list (Op H)) :
  let w := run ops (setup_platform h) in
  _attr_state (self w) ∈ canonical_states
  ∧ _attr_state (self w) = derived (trace w)
  ∧ _attr_state (self (exec update w))
    = Normalizer (alarm_state (hub (exec update w))).
Proof.
  intros w.
  assert (Hinv : _attr_state (self w) = derived (trace w))
    by by apply run_derived.
  split; [|split].
  - rewrite Hinv. apply derived_canonical.
  - exact Hinv.
  - by rewrite exec_update.
Qed.

(** *** The last change record *)

(** C8. [update_last_event] sets the changed-by user and the changed
    timestamp and leaves every other field of the entity, its state among
    them, as it was; the listener that drives it changes the entity in no
    other way, for every event. *)
Theorem last_event_frame (a : VisonicAlarm) (u t : value)
    (event : StateChanged) w :
  let a' := update_last_event u t a in
  let w' := exec (arm_event_listener event) w in
  (_changed_by a' = u ∧ _changed_timestamp a' = t
   ∧ _attr_state a' = _attr_state a
   ∧ _code a' = _code a
   ∧ _no_pin_required a' = _no_pin_required a
   ∧ _event_hour_offset a' = _event_hour_offset a
   ∧ _id a' = _id a)
  ∧ (self w' = self w
     ∨ ∃ u' t', self w' = update_last_event u' t' (self w))
  ∧ _attr_state (self w') = _attr_state (self w)
  ∧ _code (self w') = _code (self w)
  ∧ _no_pin_required (self w') = _no_pin_required (self w)
  ∧ _event_hour_offset (self w') = _event_hour_offset (self w)
  ∧ _id (self w') = _id (self w).
Proof.
  intros a' w'. split; [done|]. subst w'.
  destruct (listener_cases event w) as [->| ->].
  - split; [by left | done].
  - split; [right; eauto | done].
Qed.

End Properties.

(** ** Concrete runs on the simulated hub *)

Module Runs.

#[local] Existing Instance Sim.caseless.

(** The world after set-up of a panel that will report [raw]. *)
Definition world (raw : option str) (ready pin_free : bool) : World Sim.Panel :=
  setup_platform (Sim.panel raw ready pin_free).

Lemma update_synonym_witness :
  let w := world (Some (lit "  aWay ")) true false in
  ("AWAY" ∈ synonyms STATE_ALARM_ARMED_AWAY
   ∧ upper (strip (lit "aWay")) = lit "AWAY"
   ∧ spaces (lit "  ") ∧ spaces (lit " "))
  ∧ _attr_state (self (exec update w)) = STATE_ALARM_ARMED_AWAY.
Proof.
  intros w.
  assert (Hkey : "AWAY" ∈ synonyms STATE_ALARM_ARMED_AWAY) by constructor.
  assert (Hl : spaces (lit "  ")) by (repeat constructor).
  assert (Hr : spaces (lit " ")) by (repeat constructor).
  split; [repeat split; assumption || reflexivity|].
  refine (update_synonym w STATE_ALARM_ARMED_AWAY "AWAY" (lit "aWay")
            (lit "  ") (lit " ") Hkey _ Hl Hr _); reflexivity.
Defined.

Lemma update_unmapped_witness :
  let w := world (Some (lit "foobar")) true false in
  _attr_state (self (exec update w)) = STATE_UNKNOWN.
Proof.
  intros w.
  refine (proj1 (update_unmapped w (Some (lit "foobar")) eq_refl _)).
  cbn [unmapped]. rewrite is_key_all_keys.
  apply (bool_decide_unpack _). vm_compute. exact I.
Defined.

Lemma command_issued_witness :
  let w := world (Some (lit "READY")) true false in
  exec (command CmdArmAway (Str (lit "1234"))) w = issued CmdArmAway w.
Proof.
  intros w.
  refine (proj2 (command_issued w CmdArmAway (Str (lit "1234")) _ _)).
  - right. reflexivity.
  - intros _. reflexivity.
Defined.

Lemma command_wrong_code_witness :
  let w := world (Some (lit "READY")) true false in
  trace (exec (command CmdDisarm (Str (lit "0000"))) w)
  = trace w ++ [wrong_code_notice CmdDisarm].
Proof.
  intros w.
  refine (proj1 (proj2 (proj2
    (command_wrong_code w CmdDisarm (Str (lit "0000")) eq_refl _)))).
  discriminate.
Defined.

Lemma arm_not_ready_witness :
  let w := world (Some (lit "READY")) false false in
  trace (exec (command CmdArmHome (Str (lit "1234"))) w)
  = trace w ++ [not_ready_notice CmdArmHome].
Proof.
  intros w.
  refine (proj1 (proj2 (proj2
    (arm_not_ready w CmdArmHome (Str (lit "1234")) _ _ eq_refl)))).
  - discriminate.
  - right. reflexivity.
Defined.

Lemma no_pin_any_code_witness :
  let w := world (Some (lit "READY")) true true in
  exec (command CmdArmHome None_) w = issued CmdArmHome w.
Proof.
  intros w.
  exact (proj1 (no_pin_any_code w CmdArmHome eq_refl None_)).
Defined.

Lemma disarm_ignores_ready_witness :
  let w := world (Some (lit "AWAY")) false false in
  exec (alarm_disarm (Str (lit "1234"))) w = issued CmdDisarm w.
Proof.
  intros w.
  refine (proj1 (disarm_ignores_ready w (Str (lit "1234")) _ eq_refl)).
  right. reflexivity.
Defined.

Lemma refused_changes_nothing_witness :
  let w := world (Some (lit "AWAY")) true false in
  self (exec (command CmdArmAway None_) w) = self w.
Proof.
  intros w.
  refine (proj1 (refused_changes_nothing w CmdArmAway None_ _)).
  left. split; [reflexivity | discriminate].
Defined.

End Runs.

(** ** The dictionary of [update], key by key *)

Lemma mapping_keys_of (k : str) (st : AlarmState) :
  k ∈ keys_of st → mapping !! k = Some st ∧ table_state k = st.
Proof.
  intros Hk. unfold keys_of in Hk.
  apply list_elem_of_fmap in Hk as (key & -> & Hkey).
  by apply mapping_synonym.
Qed.

(** X1. A lookup in the dictionary of [update] gives a state exactly for the
    synonyms of that state, so no status belongs to two states. *)
Theorem mapping_lookup_exact (k : str) (st : AlarmState) :
  (mapping !! k = Some st ↔ k ∈ keys_of st)
  ∧ (∀ st', k ∈ keys_of st → k ∈ keys_of st' → st = st').
Proof.
  split; [split|].
  - intros Hlook. destruct (decide (k ∈ all_keys)) as [Hk|Hk].
    + apply is_key_all_keys in Hk as [s Hs].
      destruct (mapping_keys_of k s Hs) as [Hlook' _]. congruence.
    + rewrite <- is_key_all_keys in Hk.
      rewrite (mapping_unmatched k Hk) in Hlook. discriminate.
  - apply mapping_keys_of.
  - intros st' [H1 _]%mapping_keys_of [H2 _]%mapping_keys_of. congruence.
Qed.

Section More.

Context {H : Type} {client : HubClient H} {unicode : Unicode}.

Implicit Types (w : World H) (c : Command) (code : value).



(** ** The code format and the code gate *)

(** With the gate open a command depends on readiness only. *)
Lemma command_gate_open c code w :
  negb (_no_pin_required (self w)) && ne code (_code (self w)) = false →
  exec (command c code) w =
  if bool_decide (c = CmdDisarm) || alarm_ready (hub w)
  then issued c w
  else refused (not_ready_notice c) w.
Proof.
  intros Hgate. destruct (decide (c = CmdDisarm)) as [->|Hne].
  - by rewrite command_goes_through, exec_issue.
  - rewrite bool_decide_eq_false_2 by done. cbn [orb].
    destruct (alarm_ready (hub w)) eqn:Hready.
    + by rewrite command_goes_through, exec_issue.
    + by rewrite command_refused_ready.
Qed.


(** ** What a run never changes *)

Lemma run_op_settings (o : Op H) w :
  settings (self (exec (run_op o) w)) = settings (self w).
Proof.
  destruct o as [|c code|event|u t|f]; cbn [run_op].
  - by rewrite exec_update.
  - by destruct (command_cases c code w) as [->|(notice & _ & ->)].
  - by destruct (listener_cases event w) as [->| ->].
  - done.
  - done.
Qed.

Lemma run_settings (ops : list (Op H)) w :
  settings (self (run ops w)) = settings (self w).
Proof.
  revert w. induction ops as [|o ops IH]; intros w; [done|].
  cbn [run foldl]. fold (run ops (exec (run_op o) w)).
  by rewrite IH, run_op_settings.
Qed.

(** X5. The configured code, the "no PIN required" flag, the hour offset
    and the unique id are taken once, at set-up, from the freshly updated
    hub; no sequence of operations changes them, whatever happens to the
    hub's configuration afterwards. *)
Theorem settings_frozen (h : H) (ops : list (Op H)) :
  let w := run ops (setup_platform h) in
  _code (self w) = config_user_code (hub_update h)
  ∧ _no_pin_required (self w) = config_no_pin_required (hub_update h)
  ∧ event_hour_offset (self w) = config_event_hour_offset (hub_update h)
  ∧ unique_id (self w) = alarm_serial_number (hub_update h).
Proof.
  intros w.
  pose proof (run_settings ops (setup_platform h)) as Hset. fold w in Hset.
  unfold settings, unique_id, event_hour_offset in *. cbn in Hset.
  by injection Hset as -> -> -> ->.
Qed.

Lemma run_op_last_change (o : Op H) w :
  sets_last_event o = false →
  last_change (self (exec (run_op o) w)) = last_change (self w).
Proof.
  destruct o as [|c code|event|u t|f]; cbn [run_op sets_last_event]; try done.
  - intros _. by rewrite exec_update.
  - intros _. by destruct (command_cases c code w) as [->|(notice & _ & ->)].
Qed.

(** X6. Polls and commands never touch the last change record: as long as
    no state change was delivered and [update_last_event] was not called,
    the changed-by user and the changed timestamp are still [None]. *)
Theorem last_change_needs_event (h : H) (ops : list (Op H)) :
  forallb (λ o, negb (sets_last_event o)) ops = true →
  let w := run ops (setup_platform h) in
  changed_by (self w) = None_ ∧ changed_timestamp (self w) = None_.
Proof.
  intros Hops w.
  assert (Hlc : last_change (self w) = last_change (self (setup_platform h))).
  { subst w. revert Hops. generalize (setup_platform h).
    induction ops as [|o ops IH]; intros w0 Hops; [done|].
    cbn [forallb] in Hops. apply andb_prop in Hops as [Ho Hops].
    apply negb_true_iff in Ho.
    cbn [run foldl]. fold (run ops (exec (run_op o) w0)).
    by rewrite IH, run_op_last_change. }
  unfold last_change, changed_by, changed_timestamp in *. cbn in Hlc.
  by injection Hlc as -> ->.
Qed.

(** ** The listener *)

(** X7. When the watched entity goes from one state to another, the
    listener asks the hub for the last event, once and with the entity's
    hour offset, exactly when the state really changed and the new state is
    ArmedHome, ArmedAway or Disarmed; it stores the user and timestamp the
    hub answers.  On every other transition it does nothing. *)
Theorem listener_on_transition (old new : AlarmState) w :
  exec (arm_event_listener (transition old new)) w =
  if bool_decide (old ≠ new ∧ new ∈ recorded_states) then queried w else w.
Proof.
  destruct w as [h a tr].
  destruct old, new; vm_compute; reflexivity.
Qed.

(** X8. The listener does nothing at all (no hub call, no change of the
    entity) for an event of another entity, an event without old or new
    state, an event whose state did not change, and a new state that is
    unknown or empty. *)
Theorem listener_ignores (event : StateChanged) w :
  entity_id event ≠ watched_entity
  ∨ old_state event = None
  ∨ new_state event = None
  ∨ (state <$> old_state event) = (state <$> new_state event)
  ∨ (state <$> new_state event) = Some (lit "unknown")
  ∨ (state <$> new_state event) = Some (lit "") →
  exec (arm_event_listener event) w = w.
Proof.
  intros Hcase. unfold arm_event_listener. destruct w as [h a tr].
  destruct event as [id [old|] [new|]]; cbn [new_state old_state entity_id] in *;
    try done.
  - case_bool_decide as Hname; [done|].
    case_bool_decide as Hid; cbn [andb]; [|done].
    case_bool_decide as Hsame; cbn [negb]; [done|].
    exfalso. destruct Hcase as [?|[?|[?|[Heq|[Hu|He]]]]]; try done.
    + cbn in Heq. by injection Heq.
    + cbn in Hu. injection Hu as Hu. apply Hname. rewrite Hu. by left.
    + cbn in He. injection He as He. apply Hname. rewrite He. right. by left.
  - case_bool_decide; [done|]. by rewrite andb_false_r.
Qed.

(** ** What a run leaves in the trace *)

Lemma count_app {A} (p : A → bool) (l1 l2 : list A) :
  (count p (l1 ++ l2) = count p l1 + count p l2)%nat.
Proof. induction l1 as [|x l1 IH]; cbn [count app]; [done|]. rewrite IH. lia. Qed.

(** The events one operation adds. *)
Inductive adds : Op H → list Event → Prop :=
| adds_nothing o :
    is_poll o = false → is_issue o = false → adds o []
| adds_query event offset :
    adds (Deliver event) [GetLastEvent offset]
| adds_poll raw :
    adds Poll ([HubUpdate; LogWarning raw] ++ debug_line raw)
| adds_command c code raw :
    adds (Issue c code)
      ([client_event c; Sleep 1; HubUpdate; LogWarning raw] ++ debug_line raw)
| adds_notice c code notice :
    is_notice notice = true → adds (Issue c code) [notice].

Lemma run_op_adds (o : Op H) w :
  ∃ new, trace (exec (run_op o) w) = trace w ++ new ∧ adds o new.
Proof.
  destruct o as [|c code|event|u t|f]; cbn [run_op].
  - rewrite exec_update. eexists. split; [done|]. constructor.
  - destruct (command_cases c code w) as [->|(notice & Hn & ->)].
    + eexists. split; [done|]. constructor.
    + eexists. split; [done|]. by constructor.
  - destruct (listener_cases event w) as [->| ->].
    + exists []. split; [by rewrite app_nil_r|]. by constructor.
    + eexists. split; [done|]. constructor.
  - exists []. split; [by rewrite app_nil_r|]. by constructor.
  - exists []. split; [by rewrite app_nil_r|]. by constructor.
Qed.

Lemma adds_counts (o : Op H) new :
  adds o new →
  (count is_command_call new + count is_notice new
   = if is_issue o then 1 else 0)%nat
  ∧ count is_settle new = count is_command_call new
  ∧ (count is_refresh new
     = (if is_poll o then 1 else 0) + count is_command_call new)%nat
  ∧ (count is_last_event_query new ≤ if is_deliver o then 1 else 0)%nat.
Proof.
  destruct 1 as [o Hp Hi|event offset|raw|c code raw|c code notice Hn].
  - rewrite Hp, Hi. cbn. by destruct (is_deliver o); repeat split; lia.
  - cbn. repeat split; lia.
  - destruct raw; cbn; repeat split; lia.
  - destruct raw, c; cbn; repeat split; lia.
  - destruct notice; try discriminate Hn. cbn. repeat split; lia.
Qed.

(** X9. In every run after set-up, each command issued has left exactly one
    trace of itself, a hub command or a notice and never both; the settle
    delays are as many as the hub commands; the refreshes are the one of the
    set-up, one per poll and one per hub command; and the hub is asked for
    the last event at most once per delivered state change. *)
Theorem run_accounts (h : H) (ops : list (Op H)) :
  let tr := trace (run ops (setup_platform h)) in
  (count is_command_call tr + count is_notice tr = count is_issue ops)%nat
  ∧ count is_settle tr = count is_command_call tr
  ∧ (count is_refresh tr = 1 + count is_poll ops + count is_command_call tr)%nat
  ∧ (count is_last_event_query tr ≤ count is_deliver ops)%nat.
Proof.
  intros tr.
  assert (Hgen : ∀ w : World H,
    let t := trace w in let t' := trace (run ops w) in
    (count is_command_call t' + count is_notice t'
     = count is_command_call t + count is_notice t + count is_issue ops)%nat
    ∧ (count is_settle t' + count is_command_call t
       = count is_settle t + count is_command_call t')%nat
    ∧ (count is_refresh t' + count is_command_call t
       = count is_refresh t + count is_poll ops + count is_command_call t')%nat
    ∧ (count is_last_event_query t'
       ≤ count is_last_event_query t + count is_deliver ops)%nat).
  { induction ops as [|o ops IH]; intros w; cbn zeta.
    - cbn [run foldl count]. lia.
    - cbn [run foldl]. fold (run ops (exec (run_op o) w)).
      specialize (IH (exec (run_op o) w)). cbn zeta in IH.
      destruct (run_op_adds o w) as (new & Hnew & Hadds).
      apply adds_counts in Hadds. rewrite Hnew, !count_app in IH.
      cbn [count]. destruct (is_issue o), (is_poll o), (is_deliver o); lia. }
  specialize (Hgen (setup_platform h)). cbn zeta in Hgen.
  fold tr in Hgen. cbn [setup_platform trace count is_command_call is_notice
    is_settle is_refresh is_last_event_query] in Hgen. lia.
Qed.

Lemma settles_app tr new :
  settles tr = true → settles new = true → settles (tr ++ new) = true.
Proof.
  intros Htr Hnew. induction tr as [|e rest IH]; [done|].
  cbn [settles app] in *. apply andb_prop in Htr as [He Hrest].
  rewrite IH by done. rewrite andb_true_r.
  destruct (is_command_call e); [|done].
  repeat match type of He with
         | match ?x with _ => _ end = true => destruct x; try discriminate He
         end.
  done.
Qed.

Lemma reads_fresh_app tr new :
  reads_fresh tr = true → reads_fresh new = true → starts_quiet new = true →
  reads_fresh (tr ++ new) = true.
Proof.
  intros Htr Hnew Hq. induction tr as [|e rest IH]; [done|].
  cbn [reads_fresh app] in *. apply andb_prop in Htr as [He Hrest].
  rewrite IH by done. rewrite andb_true_r.
  destruct rest as [|e' rest']; [|exact He].
  cbn [app]. by destruct new as [|[] ?].
Qed.

Lemma adds_orderly (o : Op H) new :
  adds o new →
  settles new = true ∧ reads_fresh new = true ∧ starts_quiet new = true.
Proof.
  destruct 1 as [o Hp Hi|event offset|raw|c code raw|c code notice Hn]; try done.
  - by destruct raw.
  - by destruct raw, c.
  - by destruct notice.
Qed.

(** X10. In every run after set-up, each hub command is directly followed
    by the settle delay of one second and then a refresh of the hub, and each
    raw status that is logged was read directly after a refresh. *)
Theorem run_orderly (h : H) (ops : list (Op H)) :
  let tr := trace (run ops (setup_platform h)) in
  settles tr = true ∧ reads_fresh tr = true.
Proof.
  intros tr.
  assert (Hgen : ∀ w : World H,
    settles (trace w) = true ∧ reads_fresh (trace w) = true →
    settles (trace (run ops w)) = true ∧ reads_fresh (trace (run ops w)) = true).
  { induction ops as [|o ops IH]; intros w Hw; [done|].
    cbn [run foldl]. fold (run ops (exec (run_op o) w)). apply IH.
    destruct (run_op_adds o w) as (new & -> & Hadds).
    apply adds_orderly in Hadds as (? & ? & ?). destruct Hw.
    split; [by apply settles_app | by apply reads_fresh_app]. }
  by apply Hgen.
Qed.

(** ** Refusals and retries *)

Lemma command_ignores_trace c code w tr :
  let w' := {| hub := hub w; self := self w; trace := tr |} in
  hub (exec (command c code) w') = hub (exec (command c code) w)
  ∧ self (exec (command c code) w') = self (exec (command c code) w)
  ∧ ∃ new, trace (exec (command c code) w) = trace w ++ new
           ∧ trace (exec (command c code) w') = tr ++ new.
Proof.
  intros w'.
  assert (Hshape : ∀ v v' : World H,
    hub v' = hub v → self v' = self v →
    (∃ new, trace v = trace w ++ new ∧ trace v' = tr ++ new) →
    hub v' = hub v ∧ self v' = self v
    ∧ ∃ new, trace v = trace w ++ new ∧ trace v' = tr ++ new) by done.
  destruct (negb (_no_pin_required (self w)) && ne code (_code (self w))) eqn:Hgate.
  - rewrite (command_refused_code c code w), (command_refused_code c code w')
      by done.
    apply Hshape; [done..|]. by eexists.
  - destruct (decide (c = CmdDisarm ∨ alarm_ready (hub w) = true)) as [Hgo|Hno].
    + assert (Hready : c ≠ CmdDisarm → alarm_ready (hub w) = true) by tauto.
      rewrite (command_goes_through c code w), (command_goes_through c code w'),
        !exec_issue by done.
      apply Hshape; [done..|]. by eexists.
    + assert (c ≠ CmdDisarm) by tauto.
      assert (alarm_ready (hub w) = false) by (destruct (alarm_ready (hub w)); tauto).
      rewrite (command_refused_ready c code w), (command_refused_ready c code w')
        by done.
      apply Hshape; [done..|]. by eexists.
Qed.

(** X11. A refusal has no lasting effect: after a command was refused for a
    wrong code, any command does to the hub and to the entity what it would
    have done without the refused attempt, and adds the same events, which
    now come after the notice of the refusal. *)
Theorem retry_after_refusal w c c' code bad :
  _no_pin_required (self w) = false →
  bad ≠ _code (self w) →
  let w1 := exec (command c' bad) w in
  hub (exec (command c code) w1) = hub (exec (command c code) w)
  ∧ self (exec (command c code) w1) = self (exec (command c code) w)
  ∧ ∃ new, trace (exec (command c code) w) = trace w ++ new
           ∧ trace (exec (command c code) w1)
             = trace w ++ wrong_code_notice c' :: new.
Proof.
  intros Hpin Hbad w1. subst w1.
  rewrite (command_refused_code c' bad) by by apply gate_test_fails.
  unfold refused.
  destruct (command_ignores_trace c code w (trace w ++ [wrong_code_notice c']))
    as (Hh & Hs & new & Hnew & Hnew').
  split; [exact Hh|]. split; [exact Hs|].
  exists new. split; [done|]. by rewrite Hnew', <- app_assoc.
Qed.

(** X12. When no user code is configured, a command given without a code
    passes the gate although a PIN is required, in every world a run can
    reach: it goes through, or for arming a panel that is not ready gives
    the not-ready notice, and is never refused for its code. *)
Theorem no_code_configured (h : H) (ops : list (Op H)) c :
  config_user_code (hub_update h) = None_ →
  let w := run ops (setup_platform h) in
  exec (command c None_) w =
  if bool_decide (c = CmdDisarm) || alarm_ready (hub w)
  then issued c w
  else refused (not_ready_notice c) w.
Proof.
  intros Hcode w.
  pose proof (run_settings ops (setup_platform h)) as Hset. fold w in Hset.
  unfold settings in Hset. cbn in Hset. injection Hset as Hc _ _ _.
  apply command_gate_open, gate_test. right. by rewrite Hc, Hcode.
Qed.

(** ** The keys of the table are in normal form *)

(** X13. Every key of the table is what trimming and upper-casing leave
    unchanged, so no entry of the dictionary is out of reach: a hub that
    reports a key as it is written gets the state of that key. *)
Theorem keys_normal_form (k : str) (st : AlarmState) w :
  k ∈ keys_of st →
  upper (strip k) = k
  ∧ (alarm_state (hub_update (hub w)) = Some k →
     _attr_state (self (exec update w)) = st).
Proof.
  intros Hk.
  assert (Hnorm : upper (strip k) = k).
  { unfold keys_of in Hk. destruct st; cbn in Hk;
      repeat (apply elem_of_cons in Hk as [->|Hk]; [by vm_compute|]);
      by apply elem_of_nil in Hk. }
  split; [done|]. intros Hraw. rewrite exec_update, Hraw.
  cbn [self set_attr_state _attr_state Normalizer]. rewrite Hnorm.
  by destruct (mapping_keys_of k st Hk) as [_ ->].
Qed.

End More.

(** ** More concrete runs on the simulated hub *)

Module MoreRuns.

#[local] Existing Instance Sim.caseless.

(** A panel without a configured user code. *)
Definition codeless : Sim.Panel :=
  {| Sim.reported := None; Sim.coming := Some (lit "idle"); Sim.is_ready := true;
     Sim.user_code := None_; Sim.no_pin := false |}.


Lemma last_change_needs_event_witness :
  let ops := [Poll; Issue CmdDisarm (Str (lit "1234")); Poll] in
  let w := run ops (setup_platform (Sim.panel (Some (lit "AWAY")) true false)) in
  changed_by (self w) = None_ ∧ changed_timestamp (self w) = None_.
Proof.
  intros ops w.
  exact (last_change_needs_event (Sim.panel (Some (lit "AWAY")) true false)
           ops eq_refl).
Defined.

Lemma listener_ignores_witness :
  let w := Runs.world (Some (lit "AWAY")) true false in
  let event := {| entity_id := Str (lit "sensor.door");
                  old_state := Some {| state := lit "disarmed" |};
                  new_state := Some {| state := lit "armed_away" |} |} in
  exec (arm_event_listener event) w = w.
Proof.
  intros w event. refine (listener_ignores event w _).
  left. discriminate.
Defined.

Lemma retry_after_refusal_witness :
  let w := Runs.world (Some (lit "AWAY")) true false in
  let w1 := exec (command CmdArmHome (Str (lit "9999"))) w in
  hub (exec (command CmdDisarm (Str (lit "1234"))) w1)
  = hub (exec (command CmdDisarm (Str (lit "1234"))) w).
Proof.
  intros w w1.
  refine (proj1 (retry_after_refusal w CmdDisarm CmdArmHome
                   (Str (lit "1234")) (Str (lit "9999")) eq_refl _)).
  discriminate.
Defined.

Lemma no_code_configured_witness :
  let w := run [Poll] (setup_platform codeless) in
  exec (command CmdArmAway None_) w = issued CmdArmAway w.
Proof.
  intros w.
  exact (no_code_configured codeless [Poll] CmdArmAway eq_refl).
Defined.

Lemma keys_normal_form_witness :
  lit "EXITDELAY" ∈ keys_of STATE_ALARM_ARMING
  ∧ upper (strip (lit "EXITDELAY")) = lit "EXITDELAY".
Proof.
  assert (Hk : lit "EXITDELAY" ∈ keys_of STATE_ALARM_ARMING)
    by (right; left).
  split; [exact Hk|].
  exact (proj1 (keys_normal_form (lit "EXITDELAY") STATE_ALARM_ARMING
                  (Runs.world None true false) Hk)).
Defined.

End MoreRuns.
